(** * Life-expectancy web form (api.py): a shallow embedding and its properties

    The Python module is embedded function by function.  Text is modelled
    as a list of characters restricted to ASCII (the only characters whose
    case, digit or blank status the program's patterns look at); Python's
    [int] is [Z]; Python's [float] is the kernel's binary64 [float]; a raised
    exception is the [Raise] branch of [outcome]; the current year read
    from the clock and the loaded table are explicit arguments. *)

From Stdlib Require Import ZArith List String Ascii Bool Lia Floats Sorted.
Import ListNotations.

Local Open Scope string_scope.
Local Open Scope Z_scope.
Local Open Scope list_scope.

(** ** Text *)

Definition str := list ascii.

Coercion list_ascii_of_string : string >-> list.

Definition code (c : ascii) : Z := Z.of_nat (nat_of_ascii c).

Definition chr (z : Z) : ascii := ascii_of_nat (Z.to_nat z).

(** [str.lower()] on ASCII text: [A]..[Z] move down by 32. *)
Definition lower_char (c : ascii) : ascii :=
  if (65 <=? code c) && (code c <=? 90) then chr (code c + 32) else c.

Definition lower (s : str) : str := map lower_char s.

(** [\d] and [[0-9]]. *)
Definition is_digit (c : ascii) : bool := (48 <=? code c) && (code c <=? 57).

(** [\s] and the characters [str.strip()] removes, within ASCII:
    TAB, LF, VT, FF, CR, the separators 28..31 and the space. *)
Definition is_space (c : ascii) : bool :=
  ((9 <=? code c) && (code c <=? 13)) || ((28 <=? code c) && (code c <=? 32)).

Definition is_char (a c : ascii) : bool := Ascii.eqb a c.

Definition in_range (lo hi c : ascii) : bool :=
  (code lo <=? code c) && (code c <=? code hi).
Arguments in_range (lo hi c)%_char.

Fixpoint str_eqb (a b : str) : bool :=
  match a, b with
  | [], [] => true
  | x :: a', y :: b' => Ascii.eqb x y && str_eqb a' b'
  | _, _ => false
  end.

Fixpoint prefixb (p s : str) : bool :=
  match p, s with
  | [], _ => true
  | x :: p', y :: s' => Ascii.eqb x y && prefixb p' s'
  | _ :: _, [] => false
  end.

(** [needle in hay] on Python strings. *)
Fixpoint contains (needle hay : str) : bool :=
  prefixb needle hay ||
  match hay with
  | [] => false
  | _ :: hay' => contains needle hay'
  end.

Fixpoint drop_spaces (s : str) : str :=
  match s with
  | c :: s' => if is_space c then drop_spaces s' else s
  | [] => []
  end.

(** [str.strip()]. *)
Definition strip (s : str) : str := rev (drop_spaces (rev (drop_spaces s))).

(** [str.replace(c, "")] for a one-character [c]. *)
Definition remove_char (a : ascii) (s : str) : str :=
  filter (fun c => negb (Ascii.eqb a c)) s.

(** [int(m)] on a string of decimal digits. *)
Definition int_of_digits (s : str) : Z :=
  fold_left (fun acc c => 10 * acc + (code c - 48)) s 0.

(** ** Exceptions *)

Inductive exn := KeyError | ValueError | OverflowError | TypeError.

Inductive outcome (A : Type) :=
| Ok (a : A)
| Raise (e : exn).
Arguments Ok {A} a.
Arguments Raise {A} e.

Definition bind {A B} (m : outcome A) (f : A -> outcome B) : outcome B :=
  match m with
  | Ok a => f a
  | Raise e => Raise e
  end.

Notation "x <- m ;; k" := (bind m (fun x => k))
  (at level 61, m at next level, right associativity).

(** ** The fragment of [re] the patterns use

    A backtracking matcher in continuation-passing style, with the
    priorities of Python's [re]: the left alternative first, greedy
    repetition.  [Grp] is the (single) capturing group; the continuation
    receives the captured text and the rest of the input. *)

Inductive regex :=
| Eps
| Cls (p : ascii -> bool)
| Seq (r1 r2 : regex)
| Alt (r1 r2 : regex)
| Rep (r : regex) (lo hi : nat)
| Star (r : regex)
| Grp (r : regex).

(** A literal word, character by character. *)
Fixpoint lit (s : str) : regex :=
  match s with
  | [] => Eps
  | c :: s' => Seq (Cls (is_char c)) (lit s')
  end.

Section Matcher.
Context {A : Type}.

Definition kont := option str -> str -> option A.

Definition orelse (a b : option A) : option A :=
  match a with
  | Some x => Some x
  | None => b
  end.

(** Greedy [r{lo,hi}], [m] being the matcher of [r]: one more [r] is
    tried first, stopping here is the fall-back once [lo] is reached. *)
Fixpoint rep_loop (m : option str -> str -> kont -> option A)
    (lo hi : nat) (cap : option str) (s : str) (k : kont) : option A :=
  match hi with
  | O => match lo with O => k cap s | S _ => None end
  | S hi' =>
      orelse (m cap s (fun cap1 s1 => rep_loop m (Nat.pred lo) hi' cap1 s1 k))
             (match lo with O => k cap s | S _ => None end)
  end.

(** Greedy [r*]; [fuel] bounds the number of rounds by the input length. *)
Fixpoint star_loop (m : option str -> str -> kont -> option A)
    (fuel : nat) (cap : option str) (s : str) (k : kont) : option A :=
  match fuel with
  | O => k cap s
  | S fuel' =>
      orelse (m cap s (fun cap1 s1 => star_loop m fuel' cap1 s1 k)) (k cap s)
  end.

Fixpoint rmatch (r : regex) (cap : option str) (s : str) (k : kont) : option A :=
  match r with
  | Eps => k cap s
  | Cls p =>
      match s with
      | c :: s' => if p c then k cap s' else None
      | [] => None
      end
  | Seq r1 r2 => rmatch r1 cap s (fun cap1 s1 => rmatch r2 cap1 s1 k)
  | Alt r1 r2 => orelse (rmatch r1 cap s k) (rmatch r2 cap s k)
  | Rep r1 lo hi => rep_loop (rmatch r1) lo hi cap s k
  | Star r1 => star_loop (rmatch r1) (List.length s) cap s k
  | Grp r1 =>
      rmatch r1 cap s
        (fun _ s1 => k (Some (firstn (List.length s - List.length s1) s)) s1)
  end.
End Matcher.

(** One match anchored at the head of [s]: the group's text and the rest. *)
Definition match_here (r : regex) (s : str) : option (str * str) :=
  rmatch r None s (fun cap rest => Some (match cap with Some g => g | None => [] end, rest)).

(** [re.findall] for a pattern with one group: the groups of the
    non-overlapping matches, scanning from the left.  A match that consumes
    nothing moves the scan one character on (neither pattern of the
    program has one). *)
Fixpoint findall_fuel (fuel : nat) (r : regex) (s : str) : list str :=
  match fuel with
  | O => []
  | S fuel' =>
      match match_here r s with
      | Some (g, rest) =>
          g :: (if (List.length rest <? List.length s)%nat
                then findall_fuel fuel' r rest
                else match s with
                     | [] => []
                     | _ :: s' => findall_fuel fuel' r s'
                     end)
      | None =>
          match s with
          | [] => []
          | _ :: s' => findall_fuel fuel' r s'
          end
      end
  end.

Definition findall (r : regex) (s : str) : list str :=
  findall_fuel (S (List.length s)) r s.

(** ** Text analysis *)

Definition digit := Cls is_digit.

(** [r"(19[0-9]{2}|20[0-2][0-9])"] *)
Definition birth_year_pattern : regex :=
  Grp (Alt (Seq (lit "19") (Rep (Cls (in_range "0" "9")) 2 2))
           (Seq (lit "20") (Seq (Cls (in_range "0" "2")) (Cls (in_range "0" "9"))))).

(** [r"(\d{1,3})\s*ans"] *)
Definition age_pattern : regex :=
  Seq (Grp (Rep digit 1 3)) (Seq (Star (Cls is_space)) (lit "ans")).

Definition chain_le (lo x hi : Z) : bool := (lo <=? x) && (x <=? hi).
Definition chain_lt (lo x hi : Z) : bool := (lo <? x) && (x <? hi).

(** [current_year] is [datetime.now().year]. *)
Definition detect_birth_year (current_year : Z) (text : str) : option Z :=
  let matches := findall birth_year_pattern text in
  match matches with
  | [] => None
  | _ => find (fun y => chain_le 1900 y current_year) (map int_of_digits matches)
  end.

Definition detect_age (text : str) : option Z :=
  let matches := findall age_pattern text in
  match matches with
  | [] => None
  | _ =>
      let candidates :=
        filter (fun x => chain_lt 0 x 120) (map int_of_digits matches) in
      match candidates with
      | x :: _ => Some x
      | [] => None
      end
  end.

Definition estimate_age (current_year : Z) (text : str) : option Z :=
  let text := lower text in
  let age_direct := detect_age text in
  let birth_year := detect_birth_year current_year text in
  match age_direct with
  | Some a => Some a
  | None =>
      match birth_year with
      | Some y =>
          let age := current_year - y in
          if chain_lt 0 age 120 then Some age else None
      | None => None
      end
  end.

(** ** Numbers

    A Python number is an [int] or a [float].  Mixed arithmetic converts
    the [int] operand to a double first, which raises [OverflowError] when
    the nearest double would be infinite. *)

Inductive num :=
| PyInt (z : Z)
| PyFloat (f : float).

Definition double_bound : Z := 2 ^ 1024 - 2 ^ 970.

Definition float_of_int (z : Z) : outcome float :=
  if Z.abs z <? double_bound
  then Ok (SF2Prim (binary_normalize prec emax z 0 false))
  else Raise OverflowError.

(** [int(f)]: truncation toward zero; [nan] and the infinities raise. *)
Definition int_of_float (f : float) : outcome Z :=
  match Prim2SF f with
  | S754_zero _ => Ok 0
  | S754_finite sign m e =>
      let v := if 0 <=? e then Z.shiftl (Z.pos m) e else Z.shiftr (Z.pos m) (- e) in
      Ok (if sign then - v else v)
  | S754_infinity _ => Raise OverflowError
  | S754_nan => Raise ValueError
  end.

Definition py_int (x : num) : outcome Z :=
  match x with
  | PyInt z => Ok z
  | PyFloat f => int_of_float f
  end.

Definition lift_float (op : float -> float -> float) (zop : Z -> Z -> Z)
    (x y : num) : outcome num :=
  match x, y with
  | PyInt a, PyInt b => Ok (PyInt (zop a b))
  | PyFloat a, PyFloat b => Ok (PyFloat (op a b))
  | PyFloat a, PyInt b => b' <- float_of_int b ;; Ok (PyFloat (op a b'))
  | PyInt a, PyFloat b => a' <- float_of_int a ;; Ok (PyFloat (op a' b))
  end.

Definition num_sub : num -> num -> outcome num := lift_float PrimFloat.sub Z.sub.
Definition num_mul : num -> num -> outcome num := lift_float PrimFloat.mul Z.mul.

(** [0 > x], the test [max(x, 0)] makes: false on [nan]. *)
Definition zero_gt (x : num) : bool :=
  match x with
  | PyInt z => z <? 0
  | PyFloat f => PrimFloat.ltb f 0
  end.

(** [max(x, 0)]: the first argument unless the second is greater. *)
Definition max_with_zero (x : num) : num :=
  if zero_gt x then PyInt 0 else x.

(** ** The table

    A row carries the three columns the program reads by name, typed as
    the dataset has them, and its remaining cells by position.  [columns]
    lists the labels of these remaining columns in file order. *)

Record Row := mkRow {
  location_name : str;
  year_id : Z;
  scenario_name : str;
  cells : list float
}.

Record DataFrame := mkDataFrame {
  columns : list str;
  rows : list Row
}.

(** [Series.unique()]: first occurrences, in order of appearance. *)
Fixpoint unique_from {A} (eqb : A -> A -> bool) (seen l : list A) : list A :=
  match l with
  | [] => []
  | x :: l' =>
      if existsb (eqb x) seen then unique_from eqb seen l'
      else x :: unique_from eqb (x :: seen) l'
  end.

Definition unique {A} (eqb : A -> A -> bool) (l : list A) : list A :=
  unique_from eqb [] l.

Fixpoint insert_sorted (x : Z) (l : list Z) : list Z :=
  match l with
  | [] => [x]
  | y :: l' => if x <=? y then x :: l else y :: insert_sorted x l'
  end.

Definition sorted (l : list Z) : list Z := fold_right insert_sorted [] l.

(** [max(l)]: [ValueError] on an empty list. *)
Definition py_max (l : list Z) : outcome Z :=
  match l with
  | [] => Raise ValueError
  | x :: l' => Ok (fold_left Z.max l' x)
  end.

Record Globals := mkGlobals {
  df : DataFrame;
  AVAILABLE_YEARS : list Z;
  AVAILABLE_LOCATIONS : list str;
  DEFAULT_YEAR : Z
}.

(** The module's top level, run once on the parsed CSV. *)
Definition load_module (csv : DataFrame) : outcome Globals :=
  let df := mkDataFrame (map strip (columns csv)) (rows csv) in
  let years := sorted (unique Z.eqb (map year_id (rows df))) in
  let locations := unique str_eqb (map location_name (rows df)) in
  default_year <- (if existsb (Z.eqb 2023) years then Ok 2023 else py_max years) ;;
  Ok (mkGlobals df years locations default_year).

Definition detect_location (g : Globals) (text : str) : str :=
  let text := lower text in
  match find (fun loc => contains (lower loc) text) (AVAILABLE_LOCATIONS g) with
  | Some loc => loc
  | None =>
      if contains "france" text then "France"
      else if contains "italie" text || contains "italy" text then "Italy"
      else if contains "espagne" text || contains "spain" text then "Spain"
      else if contains "allemagne" text || contains "germany" text then "Germany"
      else "Global"
  end.

(** ** Life expectancy *)

(** [col.lower().replace(" ", "").replace("_", "")] *)
Definition normalize_col (col : str) : str :=
  remove_char "_" (remove_char " " (lower col)).

Definition is_years_col (col : str) : bool :=
  let col_norm := normalize_col col in
  contains "expectancy" col_norm && contains "year" col_norm.

Definition is_weeks_col (col : str) : bool :=
  let col_norm := normalize_col col in
  contains "expectancy" col_norm && contains "week" col_norm.

(** One round of the [for col in df.columns] loop. *)
Definition scan_step (acc : option str * option str) (col : str)
    : option str * option str :=
  let years_col := if is_years_col col then Some col else fst acc in
  let weeks_col := if is_weeks_col col then Some col else snd acc in
  (years_col, weeks_col).

Definition scan_columns (cols : list str) : option str * option str :=
  fold_left scan_step cols (None, None).

Fixpoint positions (col : str) (cols : list str) (i : nat) : list nat :=
  match cols with
  | [] => []
  | c :: cols' =>
      if str_eqb c col then i :: positions col cols' (S i)
      else positions col cols' (S i)
  end.

(** [float(row[col])]: a label borne by several columns selects a Series,
    which [float] refuses; a short row reads as [nan]. *)
Definition row_float (d : DataFrame) (row : Row) (col : str) : outcome float :=
  match positions col (columns d) 0 with
  | [] => Raise KeyError
  | [i] => Ok (nth i (cells row) nan)
  | _ => Raise TypeError
  end.

Definition get_life_expectancy (g : Globals) (location : str) (year : option Z)
    : outcome (option (float * float)) :=
  let year := match year with Some y => y | None => DEFAULT_YEAR g end in
  let tmp :=
    filter (fun r => str_eqb (lower (location_name r)) (lower location))
           (rows (df g)) in
  match tmp with
  | [] => Ok None
  | _ =>
      let sub :=
        filter (fun r => (year_id r =? year) && str_eqb (scenario_name r) "Reference")
               tmp in
      match sub with
      | [] => Ok None
      | row :: _ =>
          match scan_columns (columns (df g)) with
          | (Some years_col, Some weeks_col) =>
              years <- row_float (df g) row years_col ;;
              weeks <- row_float (df g) row weeks_col ;;
              Ok (Some (years, weeks))
          | _ => Raise KeyError
          end
      end
  end.

Definition compute_remaining_life (expectancy_years age : num)
    : outcome (num * num) :=
  d <- num_sub expectancy_years age ;;
  let remaining_years := max_with_zero d in
  remaining_weeks <- num_mul remaining_years (PyInt 52) ;;
  Ok (remaining_years, remaining_weeks).

(** ** The photo placeholder *)

Definition generate_text_from_image (image_path : str) : str :=
  "Je suis une personne adulte vivant dans un environnement urbain. " ++
  "Mon style de vie semble équilibré, entre travail/études et moments sociaux. " ++
  "Je fais parfois attention à ma santé, même si je pourrais améliorer " ++
  "certains aspects comme le sommeil, l’alimentation ou l'activité physique." ++
  [chr 10; chr 10] ++
  "Âge : ?? ans" ++ [chr 10] ++
  "Pays : ??" ++ [chr 10] ++
  "Habitudes : sport, tabac, alcool, stress, etc.".

(** ** The route *)

Inductive http_method := GET | POST.

(** What the handler reads of a request: the method, the form fields
    [action] and [user_text] when present, and the file name of the
    [photo] part when there is one. *)
Record Request := mkRequest {
  method : http_method;
  action : option str;
  user_text : option str;
  photo : option str
}.

(** The [result] dictionary handed to the template. *)
Record Analysis := mkAnalysis {
  location : str;
  year : Z;
  life_expectancy_years : num;
  life_expectancy_weeks : num;
  age : option Z;
  remaining_years : option num;
  remaining_weeks : option num
}.

(** The template's arguments, and the path a photo was saved under. *)
Record Response := mkResponse {
  result : option Analysis;
  warning : option str;
  input_text : str;
  saved : option str
}.

Definition UPLOAD_FOLDER : str := "uploads".

Definition is_action (a : option str) (name : str) : bool :=
  match a with
  | Some s => str_eqb s name
  | None => false
  end.

Definition truthy (s : str) : bool :=
  match s with
  | [] => false
  | _ :: _ => true
  end.

Section Route.
(** [werkzeug.utils.secure_filename], left abstract. *)
Variable secure_filename : str -> str.

Definition index (g : Globals) (current_year : Z) (req : Request)
    : outcome Response :=
  match method req with
  | GET => Ok (mkResponse None None "" None)
  | POST =>
      let input_text := match user_text req with Some t => t | None => [] end in
      if is_action (action req) "analyze_photo" then
        match photo req with
        | Some name =>
            if truthy name then
              let filename := secure_filename name in
              let save_path := UPLOAD_FOLDER ++ "/" ++ filename in
              Ok (mkResponse None None (generate_text_from_image save_path)
                             (Some save_path))
            else
              Ok (mkResponse None
                    (Some ("Merci d'ajouter une photo avant d'appuyer sur le bouton." : str))
                    input_text None)
        | None =>
            Ok (mkResponse None
                  (Some ("Merci d'ajouter une photo avant d'appuyer sur le bouton." : str))
                  input_text None)
        end
      else if is_action (action req) "predict" then
        if negb (truthy (strip input_text)) then
          Ok (mkResponse None (Some ("Veuillez écrire ou générer un texte." : str))
                         input_text None)
        else
          let location := detect_location g input_text in
          let age := estimate_age current_year input_text in
          life <- get_life_expectancy g location None ;;
          match life with
          | None =>
              Ok (mkResponse None
                    (Some ("Aucune donnée trouvée pour " ++ location ++ "."))
                    input_text None)
          | Some (years, weeks) =>
              weeks_int <- int_of_float weeks ;;
              match age with
              | Some a =>
                  rem <- compute_remaining_life (PyFloat years) (PyInt a) ;;
                  rem_weeks_int <- py_int (snd rem) ;;
                  Ok (mkResponse
                        (Some (mkAnalysis location (DEFAULT_YEAR g) (PyFloat years)
                                 (PyInt weeks_int) (Some a)
                                 (Some (fst rem)) (Some (PyInt rem_weeks_int))))
                        None input_text None)
              | None =>
                  Ok (mkResponse
                        (Some (mkAnalysis location (DEFAULT_YEAR g) (PyFloat years)
                                 (PyInt weeks_int) None None None))
                        None input_text None)
              end
          end
      else Ok (mkResponse None None input_text None)
  end.
End Route.

(** ** Vocabulary of the statements *)




(** [x] is the last element of [l] with [P]. *)
Definition last_such {A} (P : A -> Prop) (l : list A) (x : A) : Prop :=
  exists l1 l2, l = l1 ++ x :: l2 /\ P x /\ Forall (fun y => ~ P y) l2.

(** [needle] occurs in [hay] when case is ignored. *)
Definition contained_ci (needle hay : str) : Prop :=
  exists pre post, lower hay = pre ++ lower needle ++ post.



(** The last element of [cols] accepted by [f], or [acc]. *)
Definition pick (f : str -> bool) (cols : list str) (acc : option str) : option str :=
  fold_left (fun a c => if f c then Some c else a) cols acc.

(** The request's text, [""] when the field is missing. *)
Definition submitted (req : Request) : str :=
  match user_text req with
  | Some t => t
  | None => []
  end.

(** A POST of the prediction form. *)
Definition predict (text : string) : Request :=
  mkRequest POST (Some ("predict" : str)) (Some (text : str)) None.

(** Four characters that the birth-year pattern accepts. *)
Definition birth4 (c1 c2 c3 c4 : ascii) : bool :=
  (is_char "1" c1 && is_char "9" c2 && in_range "0" "9" c3 && in_range "0" "9" c4) ||
  (is_char "2" c1 && is_char "0" c2 && in_range "0" "2" c3 && in_range "0" "9" c4).

Definition birth_at (s : str) : bool :=
  match s with
  | c1 :: c2 :: c3 :: c4 :: _ => birth4 c1 c2 c3 c4
  | _ => false
  end.

(** The years met by a scan from the left that resumes after each match
    ([skip] characters of the last match are still to pass). *)
Fixpoint year_scan (skip : nat) (s : str) : list Z :=
  match s with
  | [] => []
  | _ :: s' =>
      match skip with
      | S k => year_scan k s'
      | O =>
          if birth_at s then int_of_digits (firstn 4 s) :: year_scan 3 s'
          else year_scan 0 s'
      end
  end.

(** The years of all the substrings the pattern accepts, from the left. *)
Fixpoint year_substrings (s : str) : list Z :=
  match s with
  | [] => []
  | _ :: s' =>
      if birth_at s then int_of_digits (firstn 4 s) :: year_substrings s'
      else year_substrings s'
  end.


Definition ANS : str := "ans".



(** The age [current_year - y] is not negative. *)
Definition age_nonneg (current_year y : Z) : bool := 0 <=? current_year - y.

(** ** Sample data *)

Definition strs (l : list string) : list str := map list_ascii_of_string l.

Definition sample_csv : DataFrame :=
  mkDataFrame
    (strs [" Life expectancy_years"; "life_expectancy_weeks "])
    [ mkRow "Global" 2023 "Reference" [73.5%float; 3822.5%float];
      mkRow "France" 2022 "Reference" [82%float; 4264%float];
      mkRow "France" 2023 "Optimistic" [84%float; 4368%float];
      mkRow "france" 2023 "Reference" [82.5%float; 4290.5%float];
      mkRow "Italy" 2023 "Reference" [83%float; 4316%float] ].

(** [load_module sample_csv], evaluated. *)
Definition sample : Globals :=
  mkGlobals
    (mkDataFrame (strs ["Life expectancy_years"; "life_expectancy_weeks"])
                 (rows sample_csv))
    [2022; 2023]
    (strs ["Global"; "France"; "france"; "Italy"])
    2023.

(** A table with two columns of each kind and none of the other names. *)
Definition twice : Globals :=
  mkGlobals
    (mkDataFrame
       (strs ["expectancy_years"; "expectancy_weeks"; "upper";
              "Expectancy Years (95)"; "Expectancy Weeks (95)"])
       [ mkRow "France" 2023 "Reference"
           [82.5%float; 4290.5%float; 1%float; 85%float; 4420%float] ])
    [2023] (strs ["France"]) 2023.


(** What the form answers in 2026 to "J'ai 30 ANS et je vis en France"
    on [sample]. *)
Definition sample_analysis : Analysis :=
  mkAnalysis "France" 2023 (PyFloat 82.5) (PyInt 4290) (Some 30)
             (Some (PyFloat 52.5)) (Some (PyInt 2730)).

(** ** Further vocabulary *)

(** The years and the location names of the rows, in row order. *)
Definition years_of (d : DataFrame) : list Z := map year_id (rows d).

Definition names_of (d : DataFrame) : list str := map location_name (rows d).

(** The float is not below zero ([nan] included). *)
Definition sf_not_negative (x : spec_float) : Prop :=
  SFltb x (S754_zero false) = false.

(** A table whose expectancy is not a number: the lookup succeeds and the
    conversion to an integer raises. *)
Definition holes : Globals :=
  mkGlobals
    (mkDataFrame (strs ["expectancy_years"; "expectancy_weeks"])
       [ mkRow "Global" 2023 "Reference" [nan; nan] ])
    [2023] (strs ["Global"]) 2023.

(** * Properties *)

(** ** Characters and text *)


Lemma code_chr (z : Z) : 0 <= z < 256 -> code (chr z) = z.
Proof.
  intros Hz. unfold code, chr.
  rewrite nat_ascii_embedding by lia. lia.
Qed.

Lemma code_inj (a b : ascii) : code a = code b -> a = b.
Proof.
  unfold code. intros H.
  rewrite <- (ascii_nat_embedding a), <- (ascii_nat_embedding b).
  f_equal. lia.
Qed.

Lemma is_char_code (a c : ascii) : is_char a c = (code c =? code a).
Proof.
  unfold is_char. destruct (Ascii.eqb_spec a c) as [->|Hne].
  - symmetry. apply Z.eqb_refl.
  - symmetry. apply Z.eqb_neq. intros H. apply Hne. symmetry. now apply code_inj.
Qed.

Lemma str_eqb_eq (a b : str) : str_eqb a b = true <-> a = b.
Proof.
  revert b. induction a as [|x a IH]; intros [|y b]; simpl; split; try easy.
  - intros H. apply andb_true_iff in H as [Hx Hab].
    apply Ascii.eqb_eq in Hx. apply IH in Hab. congruence.
  - intros H. injection H as -> ->.
    rewrite Ascii.eqb_refl. simpl. now apply IH.
Qed.


Lemma lower_char_idem (c : ascii) : lower_char (lower_char c) = lower_char c.
Proof.
  unfold lower_char.
  destruct ((65 <=? code c) && (code c <=? 90)) eqn:Hup; [|now rewrite Hup].
  apply andb_true_iff in Hup as [H1 H2].
  apply Z.leb_le in H1. apply Z.leb_le in H2.
  rewrite code_chr by lia.
  replace (code c + 32 <=? 90) with false by (symmetry; apply Z.leb_gt; lia).
  now rewrite andb_false_r.
Qed.

Lemma lower_idem (s : str) : lower (lower s) = lower s.
Proof.
  unfold lower. rewrite map_map. apply map_ext. intro c. apply lower_char_idem.
Qed.

Lemma lower_app (a b : str) : lower (a ++ b) = lower a ++ lower b.
Proof. apply map_app. Qed.

(** Lower-casing leaves every character that is not an upper-case letter. *)
Lemma lower_char_fixed (c : ascii) :
  (65 <=? code c) && (code c <=? 90) = false -> lower_char c = c.
Proof. unfold lower_char. now intros ->. Qed.

Lemma prefixb_spec (p s : str) :
  prefixb p s = true <-> exists post, s = p ++ post.
Proof.
  revert s. induction p as [|x p IH]; intros s; simpl.
  - split; [intros _; now exists s | easy].
  - destruct s as [|y s].
    + split; [easy | intros [post H]; discriminate].
    + rewrite andb_true_iff, IH. split.
      * intros [Hx [post ->]]. apply Ascii.eqb_eq in Hx as ->. now exists post.
      * intros [post H]. injection H as -> ->.
        split; [apply Ascii.eqb_refl | now exists post].
Qed.

(** [contains] decides the substring relation. *)
Lemma contains_spec (needle hay : str) :
  contains needle hay = true <-> exists pre post, hay = pre ++ needle ++ post.
Proof.
  induction hay as [|c hay IH]; simpl.
  - rewrite orb_false_r, prefixb_spec. split.
    + intros [post H]. now exists [], post.
    + intros [pre [post H]]. destruct pre; [now exists post | discriminate].
  - rewrite orb_true_iff, prefixb_spec, IH. split.
    + intros [[post H] | [pre [post H]]].
      * now exists [], post.
      * exists (c :: pre), post. now rewrite H.
    + intros [[|x pre] [post H]].
      * left. now exists post.
      * right. injection H as -> ->. now exists pre, post.
Qed.



Lemma drop_spaces_nil_inv (s : str) :
  drop_spaces s = [] -> Forall (fun c => is_space c = true) s.
Proof.
  induction s as [|c s IH]; simpl; [constructor|].
  destruct (is_space c) eqn:Hc; [|discriminate].
  intros H. constructor; auto.
Qed.

Lemma strip_nil_inv (s : str) :
  strip s = [] -> Forall (fun c => is_space c = true) s.
Proof.
  unfold strip. intros H.
  assert (Hd : drop_spaces (rev (drop_spaces s)) = []).
  { destruct (drop_spaces (rev (drop_spaces s))) as [|x l]; [easy|].
    simpl in H. now destruct (rev l). }
  apply drop_spaces_nil_inv in Hd.
  apply Forall_rev in Hd. rewrite rev_involutive in Hd.
  clear H. induction s as [|c s IH]; [constructor|].
  simpl in Hd. destruct (is_space c) eqn:Hc.
  - constructor; auto.
  - now inversion Hd.
Qed.

Lemma contains_ci (needle text : str) :
  contains (lower needle) (lower text) = true <-> contained_ci needle text.
Proof. apply contains_spec. Qed.

Lemma contains_ci_false (needle text : str) :
  contains (lower needle) (lower text) = false <-> ~ contained_ci needle text.
Proof.
  rewrite <- contains_ci. destruct (contains (lower needle) (lower text));
    split; congruence.
Qed.

(** ** Lists *)






Lemma find_none_iff {A} (f : A -> bool) (l : list A) :
  find f l = None <-> Forall (fun y => f y = false) l.
Proof.
  induction l as [|a l IH]; simpl.
  - split; auto.
  - destruct (f a) eqn:Ha; split; intros H.
    + discriminate.
    + inversion H; congruence.
    + constructor; [assumption | now apply IH].
    + inversion H; now apply IH.
Qed.

(** Boolean tests on character codes, turned into arithmetic. *)
Ltac codes :=
  repeat match goal with
    | H : _ && _ = true |- _ => apply andb_true_iff in H; destruct H
    | H : _ || _ = true |- _ => apply orb_true_iff in H; destruct H
    | H : _ && _ = false |- _ => apply andb_false_iff in H; destruct H
    | H : _ || _ = false |- _ => apply orb_false_iff in H; destruct H
    | H : is_char _ _ = true |- _ => rewrite is_char_code in H
    | H : in_range _ _ _ = true |- _ => unfold in_range in H
    | H : (_ =? _) = true |- _ => apply Z.eqb_eq in H
    | H : (_ <=? _) = true |- _ => apply Z.leb_le in H
    | H : (_ <? _) = true |- _ => apply Z.ltb_lt in H
    | H : (_ <=? _) = false |- _ => apply Z.leb_gt in H
    | H : (_ <? _) = false |- _ => apply Z.ltb_ge in H
    end.

(** ** The matcher *)

Section Loops.
Context {A : Type}.
Implicit Types (k : @kont A) (x : A).

Lemma cls_sound p cap s k x :
  rmatch (Cls p) cap s k = Some x ->
  exists c s', s = c :: s' /\ p c = true /\ k cap s' = Some x.
Proof.
  cbn [rmatch]. destruct s as [|c s']; [discriminate|].
  destruct (p c) eqn:Hc; [|discriminate]. intros H. now exists c, s'.
Qed.

Lemma orelse_some (a b : option A) x :
  orelse a b = Some x -> a = Some x \/ (a = None /\ b = Some x).
Proof. destruct a; simpl; intros H; [left | right]; auto. Qed.

Lemma rep_cls_sound p hi : forall lo cap s k x,
  rep_loop (rmatch (Cls p)) lo hi cap s k = Some x ->
  exists ds s', s = ds ++ s' /\ Forall (fun c => p c = true) ds /\
                (lo <= List.length ds <= hi)%nat /\ k cap s' = Some x.
Proof.
  induction hi as [|hi IH]; intros lo cap s k x H; cbn [rep_loop] in H.
  - destruct lo; [|discriminate]. exists [], s. repeat split; auto.
  - apply orelse_some in H as [H | [_ H]].
    + apply cls_sound in H as (c & s' & -> & Hc & H).
      apply IH in H as (ds & s'' & -> & Hds & Hlen & Hk).
      exists (c :: ds), s''. repeat split; auto; cbn [List.length]; lia.
    + destruct lo; [|discriminate]. exists [], s. repeat split; auto.
      cbn [List.length]; lia.
Qed.

Lemma star_cls_sound p fuel : forall cap s k x,
  star_loop (rmatch (Cls p)) fuel cap s k = Some x ->
  exists ws s', s = ws ++ s' /\ Forall (fun c => p c = true) ws /\ k cap s' = Some x.
Proof.
  induction fuel as [|fuel IH]; intros cap s k x H; cbn [star_loop] in H.
  - exists [], s. repeat split; auto.
  - apply orelse_some in H as [H | [_ H]].
    + apply cls_sound in H as (c & s' & -> & Hc & H).
      apply IH in H as (ws & s'' & -> & Hws & Hk).
      exists (c :: ws), s''. repeat split; auto.
    + exists [], s. repeat split; auto.
Qed.

Lemma lit_sound (w : str) : forall cap s k x,
  rmatch (lit w) cap s k = Some x -> exists s', s = w ++ s' /\ k cap s' = Some x.
Proof.
  induction w as [|a w IH]; intros cap s k x H; cbn [lit rmatch] in H.
  - now exists s.
  - destruct s as [|c s']; [discriminate|].
    destruct (is_char a c) eqn:Hc; [|discriminate].
    apply Ascii.eqb_eq in Hc as ->.
    apply IH in H as (s'' & -> & Hk). now exists s''.
Qed.





End Loops.

Lemma firstn_app_sub {B} (a b : list B) :
  firstn (List.length (a ++ b) - List.length b) (a ++ b) = a.
Proof.
  rewrite length_app.
  replace (List.length a + List.length b - List.length b)%nat
    with (List.length a + 0)%nat by lia.
  rewrite firstn_app_2. cbn [firstn]. apply app_nil_r.
Qed.


Lemma age_match_sound (s g rest : str) :
  match_here age_pattern s = Some (g, rest) ->
  exists ws, s = g ++ ws ++ ANS ++ rest /\ g <> [] /\
             Forall (fun c => is_digit c = true) g /\ (List.length g <= 3)%nat /\
             Forall (fun c => is_space c = true) ws.
Proof.
  unfold match_here, age_pattern, digit. cbn [rmatch]. intros H.
  apply rep_cls_sound in H as (ds & s1 & -> & Hds & Hlen & H).
  rewrite firstn_app_sub in H.
  apply star_cls_sound in H as (ws & s2 & -> & Hws & H).
  change (lit "ans") with (lit ANS) in H.
  apply lit_sound in H as (s3 & -> & H). injection H as <- <-.
  exists ws. repeat split; auto; [|lia].
  intros ->. cbn [List.length] in Hlen. lia.
Qed.

Lemma lower_char_cases (c : ascii) :
  (65 <= code c <= 90 /\ code (lower_char c) = code c + 32) \/
  (~ 65 <= code c <= 90 /\ lower_char c = c).
Proof.
  unfold lower_char. destruct ((65 <=? code c) && (code c <=? 90)) eqn:H; codes.
  - left. rewrite code_chr by lia. lia.
  - right. split; [lia | reflexivity].
  - right. split; [lia | reflexivity].
Qed.

Lemma lower_digit (c : ascii) : is_digit (lower_char c) = is_digit c.
Proof.
  destruct (lower_char_cases c) as [[H E] | [_ ->]]; [|reflexivity].
  unfold is_digit. rewrite E.
  destruct ((48 <=? code c + 32) && (code c + 32 <=? 57)) eqn:H1;
  destruct ((48 <=? code c) && (code c <=? 57)) eqn:H2; codes; auto; lia.
Qed.



Lemma digit_lower_fixed (c : ascii) : is_digit c = true -> lower_char c = c.
Proof.
  intros H. destruct (lower_char_cases c) as [[Hu _] | [_ E]]; [|exact E].
  unfold is_digit in H. codes. lia.
Qed.


Lemma lower_fixed (p : ascii -> bool) (s : str) :
  (forall c, p c = true -> lower_char c = c) ->
  Forall (fun c => p c = true) s -> lower s = s.
Proof.
  intros Hp H. induction H as [|c s Hc _ IH]; [reflexivity|].
  unfold lower in *. cbn [map]. now rewrite IH, (Hp c Hc).
Qed.











(** ** Birth years *)

Lemma firstn_4 (c1 c2 c3 c4 : ascii) (rest : str) :
  firstn (List.length (c1 :: c2 :: c3 :: c4 :: rest) - List.length rest)
         (c1 :: c2 :: c3 :: c4 :: rest) = [c1; c2; c3; c4].
Proof.
  replace (List.length (c1 :: c2 :: c3 :: c4 :: rest) - List.length rest)%nat
    with 4%nat by (cbn [List.length]; lia).
  reflexivity.
Qed.

Lemma match_here_birth (s : str) :
  match_here birth_year_pattern s =
  match s with
  | c1 :: c2 :: c3 :: c4 :: rest =>
      if birth4 c1 c2 c3 c4 then Some ([c1; c2; c3; c4], rest) else None
  | _ => None
  end.
Proof.
  unfold match_here, birth_year_pattern, birth4.
  cbn [rmatch lit list_ascii_of_string rep_loop Nat.pred].
  destruct s as [|c1 [|c2 [|c3 [|c4 rest]]]]; 
  repeat match goal with
  | |- context [is_char ?a ?c] => destruct (is_char a c); cbn [orelse andb orb]
  | |- context [in_range ?a ?b ?c] => destruct (in_range a b c); cbn [orelse andb orb]
  end; try reflexivity; try (rewrite firstn_4; reflexivity).
Qed.

Lemma findall_fuel_birth (fuel : nat) (s : str) :
  (List.length s < fuel)%nat ->
  map int_of_digits (findall_fuel fuel birth_year_pattern s) = year_scan 0 s.
Proof.
  revert s. induction fuel as [|fuel IH]; intros s Hlen; [lia|].
  cbn [findall_fuel]. rewrite match_here_birth.
  destruct s as [|c1 [|c2 [|c3 [|c4 rest]]]].
  - reflexivity.
  - cbn [year_scan birth_at]. rewrite IH by (simpl in *; lia). reflexivity.
  - cbn [year_scan birth_at]. rewrite IH by (simpl in *; lia). reflexivity.
  - cbn [year_scan birth_at]. rewrite IH by (simpl in *; lia). reflexivity.
  - cbn [year_scan birth_at]. destruct (birth4 c1 c2 c3 c4).
    + replace (List.length rest <? List.length (c1 :: c2 :: c3 :: c4 :: rest))%nat
        with true by (symmetry; apply Nat.ltb_lt; cbn [List.length]; lia).
      cbn [map firstn]. rewrite IH by (cbn [List.length] in *; lia). reflexivity.
    + rewrite IH by (cbn [List.length] in *; lia). reflexivity.
Qed.

Lemma code_lit : code "0" = 48 /\ code "1" = 49 /\ code "2" = 50 /\ code "9" = 57.
Proof. now repeat split. Qed.

Lemma int_of_digits_4 (c1 c2 c3 c4 : ascii) :
  int_of_digits [c1; c2; c3; c4] =
  1000 * (code c1 - 48) + 100 * (code c2 - 48) + 10 * (code c3 - 48) + (code c4 - 48).
Proof. unfold int_of_digits. cbn [fold_left]. lia. Qed.

Lemma birth4_cases (c1 c2 c3 c4 : ascii) :
  birth4 c1 c2 c3 c4 = true ->
  (code c1 = 49 /\ code c2 = 57 /\ 48 <= code c3 <= 57 /\ 48 <= code c4 <= 57) \/
  (code c1 = 50 /\ code c2 = 48 /\ 48 <= code c3 <= 50 /\ 48 <= code c4 <= 57).
Proof.
  unfold birth4. intros H. destruct code_lit as (E0 & E1 & E2 & E9).
  codes; rewrite ?E0, ?E1, ?E2, ?E9 in *; lia.
Qed.

Lemma birth4_first (c1 c2 c3 c4 : ascii) :
  birth4 c1 c2 c3 c4 = true ->
  (code c1 = 49 /\ code c2 = 57) \/ (code c1 = 50 /\ code c2 = 48).
Proof. intros H. apply birth4_cases in H. lia. Qed.

Lemma birth_year_range (c1 c2 c3 c4 : ascii) :
  birth4 c1 c2 c3 c4 = true -> 1900 <= int_of_digits [c1; c2; c3; c4] <= 2029.
Proof. intros H. apply birth4_cases in H. rewrite int_of_digits_4. lia. Qed.

Lemma birth_at_false_head (c : ascii) (s : str) :
  code c <> 49 -> code c <> 50 -> birth_at (c :: s) = false.
Proof.
  intros H1 H2. destruct s as [|c2 [|c3 [|c4 rest]]]; try reflexivity.
  cbn [birth_at]. apply not_true_is_false. intros H.
  apply birth4_first in H. lia.
Qed.

Lemma birth_at_false_second (c c' : ascii) (s : str) :
  code c = 50 -> code c' <> 48 -> birth_at (c :: c' :: s) = false.
Proof.
  intros H1 H2. destruct s as [|c3 [|c4 rest]]; try reflexivity.
  cbn [birth_at]. apply not_true_is_false. intros H.
  apply birth4_first in H. lia.
Qed.

(** A year beyond 2022 hides no other year behind its digits. *)
Lemma late_year_no_overlap (c1 c2 c3 c4 : ascii) (rest : str) :
  birth4 c1 c2 c3 c4 = true -> 2022 < int_of_digits [c1; c2; c3; c4] ->
  year_substrings (c2 :: c3 :: c4 :: rest) = year_substrings rest.
Proof.
  intros Hb Hy. apply birth4_cases in Hb. rewrite int_of_digits_4 in Hy.
  cbn [year_substrings].
  rewrite (birth_at_false_head c2) by lia.
  rewrite (birth_at_false_second c3 c4) by lia.
  rewrite (birth_at_false_head c4) by lia.
  reflexivity.
Qed.

Lemma year_scan_skip3 (c2 c3 c4 : ascii) (rest : str) :
  year_scan 3 (c2 :: c3 :: c4 :: rest) = year_scan 0 rest.
Proof. reflexivity. Qed.

Lemma scan_finds_leftmost (current_year : Z) (s : str) :
  2022 <= current_year ->
  find (fun y => y <=? current_year) (year_scan 0 s) =
  find (fun y => y <=? current_year) (year_substrings s).
Proof.
  intros Hcy. remember (List.length s) as n eqn:Hn.
  revert s Hn. induction n as [n IH] using lt_wf_ind. intros s Hn.
  destruct s as [|c1 s']; [reflexivity|].
  cbn [year_scan year_substrings].
  destruct (birth_at (c1 :: s')) eqn:Hb.
  - destruct s' as [|c2 [|c3 [|c4 rest]]]; try discriminate.
    cbn [birth_at] in Hb. cbn [firstn find].
    destruct (int_of_digits [c1; c2; c3; c4] <=? current_year) eqn:Hle;
      [reflexivity|].
    apply Z.leb_gt in Hle.
    rewrite year_scan_skip3, (late_year_no_overlap c1) by (assumption || lia).
    apply (IH (List.length rest)); [subst n; cbn [List.length]; lia | reflexivity].
  - apply (IH (List.length s')); [subst n; cbn [List.length]; lia | reflexivity].
Qed.

Lemma year_scan_range (s : str) (k : nat) :
  Forall (fun y => 1900 <= y <= 2029) (year_scan k s).
Proof.
  remember (List.length s) as n eqn:Hn.
  revert s k Hn. induction n as [n IH] using lt_wf_ind. intros s k Hn.
  destruct s as [|c1 s']; [constructor|].
  cbn [year_scan]. destruct k as [|k].
  - destruct (birth_at (c1 :: s')) eqn:Hb.
    + constructor.
      * destruct s' as [|c2 [|c3 [|c4 rest]]]; try discriminate.
        now apply birth_year_range.
      * apply (IH (List.length s')); [subst n; cbn [List.length]; lia | reflexivity].
    + apply (IH (List.length s')); [subst n; cbn [List.length]; lia | reflexivity].
  - apply (IH (List.length s')); [subst n; cbn [List.length]; lia | reflexivity].
Qed.

Lemma detect_birth_year_scan (current_year : Z) (text : str) :
  detect_birth_year current_year text =
  find (fun y => y <=? current_year) (year_scan 0 text).
Proof.
  unfold detect_birth_year, findall.
  transitivity (find (fun y => chain_le 1900 y current_year)
                  (map int_of_digits
                     (findall_fuel (S (List.length text)) birth_year_pattern text))).
  - now destruct (findall_fuel _ _ _).
  - rewrite findall_fuel_birth by lia.
    pose proof (year_scan_range text 0) as H.
    induction H as [|y l Hy _ IH]; [reflexivity|].
    cbn [find]. unfold chain_le at 1.
    replace (1900 <=? y) with true by (symmetry; apply Z.leb_le; lia).
    cbn [andb]. destruct (y <=? current_year); [reflexivity | exact IH].
Qed.

Lemma find_age_nonneg (current_year : Z) (l : list Z) :
  find (age_nonneg current_year) l = find (fun y => y <=? current_year) l.
Proof.
  induction l as [|y l IH]; [reflexivity|]. cbn [find]. rewrite IH.
  unfold age_nonneg.
  destruct (Z.leb_spec 0 (current_year - y)), (Z.leb_spec y current_year);
    (reflexivity || lia).
Qed.

(** C3, as the code has it.  [detect_birth_year] scans the text from the
    left for the 4-digit matches of the 1900-2029 patterns, resuming after
    each match, and returns the first year that is not after the current
    year; from 2022 on this is the leftmost of all the matching substrings.
    A returned year lies in 1900..2029 and gives a non-negative age; no
    upper bound on the age is enforced here. *)
Theorem detect_birth_year_first_past_year (current_year : Z) (text : str) :
  detect_birth_year current_year text =
    find (age_nonneg current_year) (year_scan 0 text) /\
  (2022 <= current_year ->
   detect_birth_year current_year text =
     find (age_nonneg current_year) (year_substrings text)) /\
  (forall y, detect_birth_year current_year text = Some y ->
     1900 <= y <= 2029 /\ 0 <= current_year - y) /\
  (detect_birth_year current_year text = None ->
   Forall (fun y => current_year < y) (year_scan 0 text)).
Proof.
  rewrite detect_birth_year_scan, !find_age_nonneg.
  split; [reflexivity|]. split; [|split].
  - intros H. now apply scan_finds_leftmost.
  - intros y H. apply find_some in H as [Hin Hle].
    pose proof (year_scan_range text 0) as Hr. rewrite Forall_forall in Hr.
    apply Z.leb_le in Hle. split; [now apply Hr | lia].
  - intros H. apply find_none_iff in H.
    eapply Forall_impl; [|exact H]. intros y Hy. now apply Z.leb_gt in Hy.
Qed.

Lemma detect_birth_year_first_past_year_witness :
  detect_birth_year 2026 "nee en 2027 ou 1985" = Some 1985.
Proof.
  rewrite (proj1 (proj2 (detect_birth_year_first_past_year
                           2026 "nee en 2027 ou 1985"))).
  - reflexivity.
  - lia.
Defined.

(** C3 as stated fails: in 2026 the year 1900 is returned, an age of 126. *)
Lemma birth_year_1900_in_2026 :
  detect_birth_year 2026 "Je suis ne en 1900" = Some 1900 /\
  ~ (2026 - 1900 <= 120).
Proof.
  split; [reflexivity | lia].
Qed.

(** The bound 2022 is sharp: in 2021 the match "2022" is too late and
    hides the year 2015 that starts on its last digit. *)
Lemma overlap_hides_year_in_2021 :
  detect_birth_year 2021 "2022015" = None /\
  find (age_nonneg 2021) (year_substrings "2022015") = Some 2015.
Proof. split; reflexivity. Qed.

(** ** Estimated age *)

Lemma estimate_age_direct (current_year : Z) (text : str) (a : Z) :
  detect_age (lower text) = Some a -> estimate_age current_year text = Some a.
Proof.
  intros H. unfold estimate_age. now rewrite H.
Qed.

(** C9. [estimate_age] ignores case: it gives the same answer on a text
    and on its lower-cased form.  Thus "30 ANS" yields 30, although
    [detect_age] alone finds nothing in it. *)
Theorem estimate_age_case_insensitive :
  (forall (current_year : Z) (text : str),
     estimate_age current_year text = estimate_age current_year (lower text)) /\
  (forall current_year : Z, estimate_age current_year "30 ANS" = Some 30) /\
  detect_age "30 ANS" = None.
Proof.
  split; [|split].
  - intros cy text. unfold estimate_age. now rewrite lower_idem.
  - intros cy. now apply estimate_age_direct.
  - reflexivity.
Qed.

Lemma detect_age_range (s : str) (a : Z) :
  detect_age s = Some a -> 0 < a < 120.
Proof.
  unfold detect_age. destruct (findall age_pattern s) as [|g more]; [discriminate|].
  destruct (filter _ _) as [|x l] eqn:Hf; [discriminate|].
  intros [= <-].
  assert (Hin : In x (filter (fun x => chain_lt 0 x 120)
                        (map int_of_digits (g :: more))))
    by (rewrite Hf; now left).
  apply filter_In in Hin as [_ Hx]. unfold chain_lt in Hx. codes. lia.
Qed.





(** ** Location *)



(** ** The resolver *)






Lemma scan_columns_pick (cols : list str) (a b : option str) :
  fold_left scan_step cols (a, b) =
  (pick is_years_col cols a, pick is_weeks_col cols b).
Proof.
  unfold pick. revert a b. induction cols as [|c cols IH]; intros a b; simpl.
  - reflexivity.
  - unfold scan_step at 2. simpl. apply IH.
Qed.

Lemma pick_snoc (f : str -> bool) (cols : list str) (c : str) (acc : option str) :
  pick f (cols ++ [c]) acc = if f c then Some c else pick f cols acc.
Proof.
  unfold pick. now rewrite fold_left_app.
Qed.






(** The three columns read by name are never taken for expectancy columns,
    wherever they stand among the labels. *)
Lemma key_columns_skipped :
  Forall (fun c => is_years_col c = false /\ is_weeks_col c = false)
         (strs ["location_name"; "year_id"; "scenario_name"]).
Proof. repeat constructor. Qed.

Lemma load_sample : load_module sample_csv = Ok sample.
Proof. reflexivity. Qed.











(** ** Remaining life *)

Lemma float_of_int_fits (z : Z) :
  Z.abs z < double_bound ->
  float_of_int z = Ok (SF2Prim (binary_normalize prec emax z 0 false)).
Proof.
  intros H. unfold float_of_int. apply Z.ltb_lt in H. now rewrite H.
Qed.

Lemma float_of_int_52 : float_of_int 52 = Ok 52%float.
Proof. vm_compute. reflexivity. Qed.

Lemma num_mul_52 (x : num) : exists w, num_mul x (PyInt 52) = Ok w.
Proof.
  destruct x as [z|f]; unfold num_mul, lift_float.
  - now exists (PyInt (z * 52)).
  - rewrite float_of_int_52. now exists (PyFloat (f * 52)).
Qed.



(** Outside the range of a double the mixed subtraction itself raises, as
    Python's conversion of the [int] operand does. *)
Lemma mixed_subtraction_overflow :
  num_sub (PyFloat 80.5) (PyInt (2 ^ 1024)) = Raise OverflowError.
Proof. vm_compute. reflexivity. Qed.


(** ** The route *)

Lemma is_action_eq (a : option str) (name : str) :
  is_action a name = true <-> a = Some name.
Proof.
  destruct a as [s|]; simpl.
  - rewrite str_eqb_eq. split; congruence.
  - split; discriminate.
Qed.



(** C8, as the code has it.  In every result of the "predict" action the
    expectancy in years is the resolver's float, the expectancy in weeks is
    that float cut to an integer by [int], the remaining years are what
    [compute_remaining_life] returned and the remaining weeks are its weeks
    cut to an integer; both are absent when the age is unknown. *)
Theorem analysis_fields
    (secure_filename : str -> str) (g : Globals) (current_year : Z)
    (req : Request) (resp : Response) (r : Analysis) :
  index secure_filename g current_year req = Ok resp ->
  result resp = Some r ->
  location r = detect_location g (submitted req) /\
  year r = DEFAULT_YEAR g /\
  age r = estimate_age current_year (submitted req) /\
  exists years weeks weeks_int,
    get_life_expectancy g (location r) None = Ok (Some (years, weeks)) /\
    life_expectancy_years r = PyFloat years /\
    int_of_float weeks = Ok weeks_int /\
    life_expectancy_weeks r = PyInt weeks_int /\
    match age r with
    | None => remaining_years r = None /\ remaining_weeks r = None
    | Some a =>
        exists rem_years rem_weeks rem_weeks_int,
          compute_remaining_life (PyFloat years) (PyInt a) =
            Ok (rem_years, rem_weeks) /\
          remaining_years r = Some rem_years /\
          py_int rem_weeks = Ok rem_weeks_int /\
          remaining_weeks r = Some (PyInt rem_weeks_int)
    end.
Proof.
  unfold index. fold (submitted req). intros H Hr.
  destruct (method req); [injection H as <-; discriminate|].
  destruct (is_action (action req) "analyze_photo").
  { destruct (photo req) as [name|]; [destruct (truthy name)|];
      injection H as <-; discriminate. }
  destruct (is_action (action req) "predict"); [|injection H as <-; discriminate].
  destruct (negb (truthy (strip (submitted req))));
    [injection H as <-; discriminate|].
  destruct (get_life_expectancy g (detect_location g (submitted req)) None)
    as [[[years weeks]|]|] eqn:Hlife; simpl in H;
    [| injection H as <-; discriminate | discriminate].
  destruct (int_of_float weeks) as [wi|] eqn:Hwi; simpl in H; [|discriminate].
  destruct (estimate_age current_year (submitted req)) as [a|] eqn:Hage.
  - destruct (compute_remaining_life (PyFloat years) (PyInt a))
      as [[ry rw]|] eqn:Hrem; simpl in H; [|discriminate].
    destruct (py_int rw) as [k|] eqn:Hk; simpl in H; [|discriminate].
    injection H as <-. simpl in Hr. injection Hr as <-. simpl.
    repeat split. exists years, weeks, wi. repeat split; auto.
    now exists ry, rw, k.
  - injection H as <-. simpl in Hr. injection Hr as <-. simpl.
    repeat split. exists years, weeks, wi. now repeat split.
Qed.

Lemma analysis_fields_witness :
  exists years weeks weeks_int,
    get_life_expectancy sample (location sample_analysis) None =
      Ok (Some (years, weeks)) /\
    life_expectancy_years sample_analysis = PyFloat years /\
    int_of_float weeks = Ok weeks_int /\
    life_expectancy_weeks sample_analysis = PyInt weeks_int.
Proof.
  destruct (analysis_fields (fun s => s) sample 2026
              (predict "J'ai 30 ANS et je vis en France")
              (mkResponse (Some sample_analysis) None
                 ("J'ai 30 ANS et je vis en France" : str) None)
              sample_analysis eq_refl eq_refl)
    as (_ & _ & _ & years & weeks & weeks_int & H1 & H2 & H3 & H4 & _).
  now exists years, weeks, weeks_int.
Defined.

(** C8 as stated fails: the resolver's weeks, 4290.5, reach the result as
    the integer 4290, and the remaining weeks, the float 2730.0, as the
    integer 2730. *)
Lemma weeks_are_cut_to_integers :
  index (fun s => s) sample 2026 (predict "J'ai 30 ANS et je vis en France") =
    Ok (mkResponse (Some sample_analysis) None
          ("J'ai 30 ANS et je vis en France" : str) None) /\
  get_life_expectancy sample (location sample_analysis) None =
    Ok (Some (82.5%float, 4290.5%float)) /\
  life_expectancy_weeks sample_analysis = PyInt 4290 /\
  life_expectancy_weeks sample_analysis <> PyFloat 4290.5 /\
  compute_remaining_life (PyFloat 82.5) (PyInt 30) =
    Ok (PyFloat 52.5, PyFloat 2730) /\
  remaining_weeks sample_analysis = Some (PyInt 2730) /\
  remaining_weeks sample_analysis <> Some (PyFloat 2730).
Proof.
  repeat split; discriminate.
Qed.

(** * Further properties *)

(** ** Matches reported by [findall] *)

(** Every group [findall] reports is the group of a match at some position,
    for a pattern whose matches leave a suffix of their input. *)
Lemma findall_fuel_in (r : regex) (fuel : nat) : forall (s g : str),
  (forall t g' rest, match_here r t = Some (g', rest) -> exists m, t = m ++ rest) ->
  In g (findall_fuel fuel r s) ->
  exists pre tail rest, s = pre ++ tail /\ match_here r tail = Some (g, rest).
Proof.
  induction fuel as [|fuel IH]; intros s g Hsuf Hin; [destruct Hin|].
  cbn [findall_fuel] in Hin.
  assert (Htail : forall c s', s = c :: s' -> In g (findall_fuel fuel r s') ->
            exists pre tail rest, s = pre ++ tail /\ match_here r tail = Some (g, rest)).
  { intros c s' -> H. apply IH in H as (pre & tail & rest & -> & Hm); [|exact Hsuf].
    now exists (c :: pre), tail, rest. }
  destruct (match_here r s) as [[g0 rest0]|] eqn:Hm.
  - destruct Hin as [<- | Hin]; [now exists [], s, rest0|].
    destruct (List.length rest0 <? List.length s)%nat.
    + destruct (Hsuf _ _ _ Hm) as [m ->].
      apply IH in Hin as (pre & tail & rest & -> & Hm'); [|exact Hsuf].
      exists (m ++ pre), tail, rest. now rewrite app_assoc.
    + destruct s as [|c s']; [destruct Hin|]. now apply (Htail c s').
  - destruct s as [|c s']; [destruct Hin|]. now apply (Htail c s').
Qed.

Lemma age_match_suffix (t g rest : str) :
  match_here age_pattern t = Some (g, rest) -> exists m, t = m ++ rest.
Proof.
  intros H. apply age_match_sound in H as (ws & -> & _).
  exists (g ++ ws ++ ANS). now rewrite <- !app_assoc.
Qed.




(** ** Texts without digits, texts without "ans" *)







Lemma lower_ANS : lower ANS = ANS.
Proof. reflexivity. Qed.

Lemma detect_age_needs_ans (text : str) :
  ~ contained_ci ANS text -> detect_age (lower text) = None.
Proof.
  intros Hno. unfold detect_age.
  destruct (findall age_pattern (lower text)) as [|g more] eqn:Hf; [reflexivity|].
  exfalso. apply Hno.
  assert (Hin : In g (findall age_pattern (lower text))) by (rewrite Hf; now left).
  apply findall_fuel_in in Hin as (pre & tail & rest & E & Hm);
    [|exact age_match_suffix].
  apply age_match_sound in Hm as (ws & -> & _).
  exists (pre ++ g ++ ws), rest. rewrite E, lower_ANS, <- !app_assoc. reflexivity.
Qed.

(** A test that only digits pass does not see lower-casing. *)
Lemma digit_test_lower (t : ascii -> bool) (c : ascii) :
  (forall x, t x = true -> is_digit x = true) -> t (lower_char c) = t c.
Proof.
  intros Ht. destruct (is_digit c) eqn:Hd.
  - now rewrite digit_lower_fixed.
  - assert (t c = false) as ->.
    { apply not_true_is_false. intros H. apply Ht in H. congruence. }
    apply not_true_is_false. intros H. apply Ht in H.
    rewrite lower_digit in H. congruence.
Qed.

Lemma is_char_digit (a x : ascii) :
  is_digit a = true -> is_char a x = true -> is_digit x = true.
Proof. unfold is_char. intros Ha H. apply Ascii.eqb_eq in H. now subst. Qed.

Lemma in_range_digit (lo hi x : ascii) :
  48 <= code lo -> code hi <= 57 -> in_range lo hi x = true -> is_digit x = true.
Proof.
  unfold in_range, is_digit. intros Hlo Hhi H. codes.
  apply andb_true_iff. split; apply Z.leb_le; lia.
Qed.

Lemma birth4_lower (c1 c2 c3 c4 : ascii) :
  birth4 (lower_char c1) (lower_char c2) (lower_char c3) (lower_char c4) =
  birth4 c1 c2 c3 c4.
Proof.
  unfold birth4.
  rewrite !(digit_test_lower (is_char _)) by (intros x; now apply is_char_digit).
  rewrite !(digit_test_lower (in_range _ _))
    by (intros x; apply in_range_digit; vm_compute; discriminate).
  reflexivity.
Qed.

Lemma birth4_digits (c1 c2 c3 c4 : ascii) :
  birth4 c1 c2 c3 c4 = true ->
  Forall (fun c => is_digit c = true) [c1; c2; c3; c4].
Proof.
  intros H. apply birth4_cases in H.
  repeat constructor; unfold is_digit; apply andb_true_iff;
    split; apply Z.leb_le; lia.
Qed.

Lemma year_scan_lower (s : str) : forall k, year_scan k (lower s) = year_scan k s.
Proof.
  induction s as [|c s IH]; intros k; [reflexivity|].
  change (lower (c :: s)) with (lower_char c :: lower s).
  cbn [year_scan]. destruct k; [|apply IH]. rewrite !IH.
  destruct s as [|c2 [|c3 [|c4 rest]]]; try reflexivity.
  change (lower (c2 :: c3 :: c4 :: rest))
    with (lower_char c2 :: lower_char c3 :: lower_char c4 :: lower rest).
  cbn [birth_at firstn]. rewrite birth4_lower.
  destruct (birth4 c c2 c3 c4) eqn:Hb; [|reflexivity].
  apply birth4_digits in Hb.
  change [lower_char c; lower_char c2; lower_char c3; lower_char c4]
    with (lower [c; c2; c3; c4]).
  now rewrite (lower_fixed is_digit _ digit_lower_fixed Hb).
Qed.

(** X4. [detect_birth_year] does not see case: it answers the same on a text
    and on its lower-cased form, the one [estimate_age] hands to it. *)
Theorem detect_birth_year_ignores_case (current_year : Z) (text : str) :
  detect_birth_year current_year (lower text) = detect_birth_year current_year text.
Proof.
  now rewrite !detect_birth_year_scan, year_scan_lower.
Qed.

(** X3. On a text that has no "ans" in any case, [estimate_age] is decided by
    the birth year found in the text as written: the difference with the
    current year when strictly between 0 and 120, absent otherwise. *)
Theorem estimate_age_without_ans (current_year : Z) (text : str) :
  ~ contained_ci ANS text ->
  estimate_age current_year text =
  match detect_birth_year current_year text with
  | Some y =>
      if chain_lt 0 (current_year - y) 120 then Some (current_year - y) else None
  | None => None
  end.
Proof.
  intros H. unfold estimate_age.
  rewrite (detect_age_needs_ans text H).
  now rewrite !detect_birth_year_scan, year_scan_lower.
Qed.

Lemma estimate_age_without_ans_witness :
  estimate_age 2026 "Nee en 1990 a Lyon, 36 years old" = Some 36.
Proof.
  rewrite (estimate_age_without_ans 2026 "Nee en 1990 a Lyon, 36 years old").
  - reflexivity.
  - apply contains_ci_false. reflexivity.
Defined.

Lemma year_scan_in (s : str) : forall (k : nat) (y : Z),
  In y (year_scan k s) ->
  exists pre c1 c2 c3 c4 post,
    s = pre ++ [c1; c2; c3; c4] ++ post /\
    birth4 c1 c2 c3 c4 = true /\ y = int_of_digits [c1; c2; c3; c4].
Proof.
  induction s as [|c s IH]; intros k y Hin; [destruct Hin|].
  assert (Hrec : forall k', In y (year_scan k' s) ->
            exists pre c1 c2 c3 c4 post,
              c :: s = pre ++ [c1; c2; c3; c4] ++ post /\
              birth4 c1 c2 c3 c4 = true /\ y = int_of_digits [c1; c2; c3; c4]).
  { intros k' H. apply IH in H as (pre & c1 & c2 & c3 & c4 & post & -> & Hb & Hy).
    now exists (c :: pre), c1, c2, c3, c4, post. }
  cbn [year_scan] in Hin. destruct k as [|k]; [|now apply (Hrec k)].
  destruct (birth_at (c :: s)) eqn:Hb; [|now apply (Hrec 0%nat)].
  destruct Hin as [<- | Hin]; [|now apply (Hrec 3%nat)].
  destruct s as [|c2 [|c3 [|c4 rest]]]; try discriminate.
  now exists [], c, c2, c3, c4, rest.
Qed.

(** X5. A year returned by [detect_birth_year] is written in the text as four
    consecutive digits. *)
Theorem detect_birth_year_is_written (current_year : Z) (text : str) (y : Z) :
  detect_birth_year current_year text = Some y ->
  exists pre m post,
    text = pre ++ m ++ post /\
    List.length m = 4%nat /\
    Forall (fun c => is_digit c = true) m /\
    int_of_digits m = y.
Proof.
  rewrite detect_birth_year_scan. intros H. apply find_some in H as [Hin _].
  apply year_scan_in in Hin as (pre & c1 & c2 & c3 & c4 & post & -> & Hb & ->).
  exists pre, [c1; c2; c3; c4], post. repeat split.
  now apply birth4_digits.
Qed.

Lemma detect_birth_year_is_written_witness :
  exists pre m post,
    ("Promo 2031, nee en 1987" : str) = pre ++ m ++ post /\ int_of_digits m = 1987.
Proof.
  destruct (detect_birth_year_is_written 2026 "Promo 2031, nee en 1987" 1987 eq_refl)
    as (pre & m & post & E & _ & _ & Hm).
  now exists pre, m, post.
Defined.

(** ** The module's top level *)

Section Unique.
Context {A : Type} (eqb : A -> A -> bool).
Hypothesis eqb_eq : forall a b, eqb a b = true <-> a = b.

Lemma existsb_eqb (x : A) (l : list A) : existsb (eqb x) l = true <-> In x l.
Proof.
  rewrite existsb_exists. split.
  - intros (y & Hin & Hy). apply eqb_eq in Hy. now subst.
  - intros H. exists x. split; [exact H | now apply eqb_eq].
Qed.

Lemma unique_from_in (l : list A) : forall seen x,
  In x (unique_from eqb seen l) <-> In x l /\ ~ In x seen.
Proof.
  induction l as [|a l IH]; intros seen x; cbn [unique_from].
  - split; [intros [] | intros [[] _]].
  - destruct (existsb (eqb a) seen) eqn:Ha.
    + apply existsb_eqb in Ha. rewrite IH. split.
      * intros [H1 H2]. split; [now right | exact H2].
      * intros [[<- | H1] H2]; [now elim H2 | now split].
    + assert (Hna : ~ In a seen).
      { intros H. apply existsb_eqb in H. congruence. }
      cbn [In]. rewrite IH. cbn [In]. split.
      * intros [<- | [H1 H2]]; [split; [now left | exact Hna]|].
        split; [now right | tauto].
      * intros [[<- | H1] H2]; [now left|].
        destruct (eqb a x) eqn:E.
        -- apply eqb_eq in E. now left.
        -- right. split; [exact H1|]. intros [-> | H]; [|now apply H2].
           assert (eqb x x = true) by now apply eqb_eq. congruence.
Qed.

Lemma unique_from_nodup (l : list A) : forall seen, NoDup (unique_from eqb seen l).
Proof.
  induction l as [|a l IH]; intros seen; cbn [unique_from]; [constructor|].
  destruct (existsb (eqb a) seen); [apply IH|].
  constructor; [|apply IH].
  rewrite unique_from_in. intros [_ H]. apply H. now left.
Qed.

Lemma unique_from_seen (l : list A) : forall seen seen',
  (forall x, In x seen <-> In x seen') ->
  unique_from eqb seen l = unique_from eqb seen' l.
Proof.
  induction l as [|a l IH]; intros seen seen' H; cbn [unique_from]; [reflexivity|].
  assert (E : existsb (eqb a) seen = existsb (eqb a) seen').
  { destruct (existsb (eqb a) seen) eqn:E1, (existsb (eqb a) seen') eqn:E2;
      try reflexivity.
    - apply existsb_eqb, H, existsb_eqb in E1. congruence.
    - apply existsb_eqb, H, existsb_eqb in E2. congruence. }
  rewrite E. destruct (existsb (eqb a) seen').
  - now apply IH.
  - f_equal. apply IH. intros x. cbn [In]. now rewrite H.
Qed.

Lemma unique_from_app (l1 l2 : list A) : forall seen,
  unique_from eqb seen (l1 ++ l2) =
  unique_from eqb seen l1 ++ unique_from eqb (l1 ++ seen) l2.
Proof.
  induction l1 as [|a l1 IH]; intros seen; cbn [unique_from app]; [reflexivity|].
  destruct (existsb (eqb a) seen) eqn:Ha.
  - rewrite IH. f_equal. apply unique_from_seen. intros x.
    apply existsb_eqb in Ha. cbn [app In]. rewrite !in_app_iff.
    split; [tauto|]. intros [<- | H]; tauto.
  - rewrite IH. cbn [app]. do 2 f_equal. apply unique_from_seen. intros x.
    cbn [app In]. rewrite !in_app_iff. cbn [In]. tauto.
Qed.

(** [unique] keeps each value once, at the place of its first occurrence. *)
Lemma unique_first (l1 l2 : list A) (x : A) :
  ~ In x l1 ->
  exists rest, unique eqb (l1 ++ x :: l2) = unique eqb l1 ++ x :: rest.
Proof.
  intros Hx. unfold unique. rewrite unique_from_app. cbn [unique_from].
  replace (existsb (eqb x) (l1 ++ [])) with false.
  - now eexists.
  - symmetry. apply not_true_is_false. intros H. apply existsb_eqb in H.
    rewrite app_nil_r in H. contradiction.
Qed.

Lemma unique_in (l : list A) (x : A) : In x (unique eqb l) <-> In x l.
Proof. unfold unique. rewrite unique_from_in. cbn [In]. tauto. Qed.

Lemma unique_nodup (l : list A) : NoDup (unique eqb l).
Proof. apply unique_from_nodup. Qed.
End Unique.

Lemma insert_sorted_in (x : Z) (l : list Z) (y : Z) :
  In y (insert_sorted x l) <-> y = x \/ In y l.
Proof.
  induction l as [|a l IH]; cbn [insert_sorted In]; [intuition|].
  destruct (x <=? a); cbn [In]; [intuition|]. rewrite IH. intuition.
Qed.

Lemma sorted_in (l : list Z) (y : Z) : In y (sorted l) <-> In y l.
Proof.
  unfold sorted. induction l as [|a l IH]; cbn [fold_right]; [reflexivity|].
  rewrite insert_sorted_in, IH. cbn [In]. intuition.
Qed.

Lemma insert_sorted_increasing (x : Z) (l : list Z) :
  StronglySorted Z.lt l -> ~ In x l -> StronglySorted Z.lt (insert_sorted x l).
Proof.
  induction l as [|a l IH]; intros Hs Hx; cbn [insert_sorted].
  - now repeat constructor.
  - apply StronglySorted_inv in Hs as [Hs Ha].
    destruct (Z.leb_spec x a) as [Hle | Hgt].
    + assert (x < a) by (assert (x <> a) by (intros ->; apply Hx; now left); lia).
      constructor; [now constructor|].
      constructor; [assumption|].
      eapply Forall_impl; [|exact Ha]. intros b Hb. lia.
    + constructor.
      * apply IH; [exact Hs|]. intros H. apply Hx. now right.
      * apply Forall_forall. intros b Hb. apply insert_sorted_in in Hb as [-> | Hb];
          [lia|]. rewrite Forall_forall in Ha. now apply Ha.
Qed.

Lemma sorted_increasing (l : list Z) :
  NoDup l -> StronglySorted Z.lt (sorted l).
Proof.
  unfold sorted. induction 1 as [|a l Ha _ IH]; cbn [fold_right]; [constructor|].
  apply insert_sorted_increasing; [exact IH|].
  fold (sorted l). now rewrite sorted_in.
Qed.

Lemma fold_left_max (l : list Z) : forall x,
  In (fold_left Z.max l x) (x :: l) /\
  Forall (fun y => y <= fold_left Z.max l x) (x :: l).
Proof.
  induction l as [|a l IH]; intros x; cbn [fold_left].
  - split; [now left | repeat constructor; lia].
  - destruct (IH (Z.max x a)) as [Hin Hall]. split.
    + destruct Hin as [E | Hin]; [|now right; right].
      destruct (Z.max_spec x a) as [[_ Hm] | [_ Hm]]; rewrite Hm in *.
      * right. now left.
      * now left.
    + inversion Hall as [|? ? H1 H2]; subst.
      constructor; [lia|]. constructor; [lia | exact H2].
Qed.


Lemma load_module_fields (csv : DataFrame) (g : Globals) :
  load_module csv = Ok g ->
  rows (df g) = rows csv /\
  columns (df g) = map strip (columns csv) /\
  AVAILABLE_YEARS g = sorted (unique Z.eqb (years_of csv)) /\
  AVAILABLE_LOCATIONS g = unique str_eqb (names_of csv) /\
  (if existsb (Z.eqb 2023) (AVAILABLE_YEARS g)
   then Ok (DEFAULT_YEAR g) = Ok 2023
   else Ok (DEFAULT_YEAR g) = py_max (AVAILABLE_YEARS g)).
Proof.
  unfold load_module, years_of, names_of. cbn [rows columns].
  destruct (existsb _ _) eqn:E.
  - cbn [bind]. intros [= <-]. cbn. now rewrite E.
  - destruct (py_max _) as [m|] eqn:Hm; cbn [bind]; [|discriminate].
    intros [= <-]. cbn. now rewrite E, Hm.
Qed.

Lemma years_in (csv : DataFrame) (y : Z) :
  In y (sorted (unique Z.eqb (years_of csv))) <->
  exists r, In r (rows csv) /\ year_id r = y.
Proof.
  rewrite sorted_in, (unique_in Z.eqb Z.eqb_eq). unfold years_of.
  rewrite in_map_iff. split; intros (r & H1 & H2); now exists r.
Qed.



(** X6. Loading fails, with the [ValueError] of [max] on an empty list, exactly
    when the table has no row; with at least one row it succeeds. *)
Theorem load_module_needs_rows (csv : DataFrame) :
  (rows csv = [] -> load_module csv = Raise ValueError) /\
  (rows csv <> [] -> exists g, load_module csv = Ok g).
Proof.
  unfold load_module. cbn [rows]. split.
  - intros ->. reflexivity.
  - intros Hne. destruct (existsb _ _); [now eexists|].
    destruct (sorted _) as [|y l] eqn:Hs; [|now eexists].
    exfalso. destruct (rows csv) as [|r rs]; [now apply Hne|].
    assert (H : In (year_id r) (sorted (unique Z.eqb (map year_id (r :: rs))))).
    { apply sorted_in, (unique_in Z.eqb Z.eqb_eq). now left. }
    rewrite Hs in H. destruct H.
Qed.

Lemma load_module_needs_rows_witness :
  load_module (mkDataFrame (strs ["life_expectancy_years"]) []) = Raise ValueError.
Proof.
  apply (proj1 (load_module_needs_rows
                  (mkDataFrame (strs ["life_expectancy_years"]) []))).
  reflexivity.
Defined.

(** X7. After loading, [DEFAULT_YEAR] is the year of some row: 2023 as soon as
    a row has it, and otherwise the latest year of the table. *)
Theorem default_year_is_2023_or_latest (csv : DataFrame) (g : Globals) :
  load_module csv = Ok g ->
  (exists r, In r (rows csv) /\ year_id r = DEFAULT_YEAR g) /\
  ((exists r, In r (rows csv) /\ year_id r = 2023) -> DEFAULT_YEAR g = 2023) /\
  ((forall r, In r (rows csv) -> year_id r <> 2023) ->
   forall r, In r (rows csv) -> year_id r <= DEFAULT_YEAR g).
Proof.
  intros H. apply load_module_fields in H as (_ & _ & Hy & _ & Hd).
  rewrite Hy in Hd.
  destruct (existsb (Z.eqb 2023) _) eqn:E.
  - injection Hd as Hd. apply (existsb_eqb Z.eqb Z.eqb_eq) in E.
    apply years_in in E. rewrite Hd. split; [exact E|]. split; [reflexivity|].
    intros Hno. destruct E as (r & Hr & Hr'). now elim (Hno r Hr).
  - assert (Hno : ~ exists r, In r (rows csv) /\ year_id r = 2023).
    { intros Hex. apply years_in in Hex.
      apply (existsb_eqb Z.eqb Z.eqb_eq) in Hex. congruence. }
    destruct (sorted _) as [|y l] eqn:Hs; [discriminate|].
    cbn [py_max] in Hd. injection Hd as Hd.
    destruct (fold_left_max l y) as [Hin Hall]. rewrite <- Hd in Hin, Hall.
    rewrite <- Hs in Hin, Hall. split; [now apply years_in|].
    split; [intros Hex; now elim Hno|].
    intros _ r Hr. rewrite Forall_forall in Hall. apply Hall.
    apply years_in. now exists r.
Qed.

Lemma default_year_is_2023_or_latest_witness :
  DEFAULT_YEAR sample = 2023.
Proof.
  apply (proj1 (proj2 (default_year_is_2023_or_latest sample_csv sample eq_refl))).
  exists (mkRow "Global" 2023 "Reference" [73.5%float; 3822.5%float]).
  split; [now left | reflexivity].
Defined.

(** X8. After loading, [AVAILABLE_YEARS] lists exactly the years of the rows,
    each once, in strictly increasing order. *)
Theorem available_years_increasing (csv : DataFrame) (g : Globals) :
  load_module csv = Ok g ->
  StronglySorted Z.lt (AVAILABLE_YEARS g) /\
  (forall y, In y (AVAILABLE_YEARS g) <-> exists r, In r (rows csv) /\ year_id r = y).
Proof.
  intros H. apply load_module_fields in H as (_ & _ & -> & _). split.
  - apply sorted_increasing, unique_nodup, Z.eqb_eq.
  - apply years_in.
Qed.

Lemma available_years_increasing_witness :
  StronglySorted Z.lt (AVAILABLE_YEARS sample).
Proof.
  apply (proj1 (available_years_increasing sample_csv sample eq_refl)).
Defined.

(** X9. After loading, [AVAILABLE_LOCATIONS] lists exactly the location names
    of the rows, each once, in the order of their first row: this is the
    order in which [detect_location] tries them. *)
Theorem available_locations_first_seen (csv : DataFrame) (g : Globals) :
  load_module csv = Ok g ->
  NoDup (AVAILABLE_LOCATIONS g) /\
  (forall n, In n (AVAILABLE_LOCATIONS g) <->
             exists r, In r (rows csv) /\ location_name r = n) /\
  (forall l1 n l2, names_of csv = l1 ++ n :: l2 -> ~ In n l1 ->
     exists rest, AVAILABLE_LOCATIONS g = unique str_eqb l1 ++ n :: rest).
Proof.
  intros H. apply load_module_fields in H as (_ & _ & _ & -> & _).
  split; [|split].
  - apply unique_nodup, str_eqb_eq.
  - intros n. rewrite (unique_in str_eqb str_eqb_eq). unfold names_of.
    rewrite in_map_iff. split; intros (r & H1 & H2); now exists r.
  - intros l1 n l2 -> Hn. now apply unique_first; [apply str_eqb_eq|].
Qed.

Lemma available_locations_first_seen_witness :
  NoDup (AVAILABLE_LOCATIONS sample).
Proof.
  apply (proj1 (available_locations_first_seen sample_csv sample eq_refl)).
Defined.

(** ** Case and separators *)

Lemma remove_char_app (a : ascii) (x y : str) :
  remove_char a (x ++ y) = remove_char a x ++ remove_char a y.
Proof. apply filter_app. Qed.

Lemma normalize_col_app (x y : str) :
  normalize_col (x ++ y) = normalize_col x ++ normalize_col y.
Proof.
  unfold normalize_col. now rewrite lower_app, !remove_char_app.
Qed.

(** X12. The tests that pick the expectancy columns do not see the case of a
    label, nor the spaces and underscores in it. *)
Theorem column_tests_ignore_case_and_separators (a b : str) :
  (is_years_col (lower a) = is_years_col a /\
   is_weeks_col (lower a) = is_weeks_col a) /\
  (is_years_col (a ++ " " ++ b) = is_years_col (a ++ b) /\
   is_weeks_col (a ++ " " ++ b) = is_weeks_col (a ++ b)) /\
  (is_years_col (a ++ "_" ++ b) = is_years_col (a ++ b) /\
   is_weeks_col (a ++ "_" ++ b) = is_weeks_col (a ++ b)).
Proof.
  unfold is_years_col, is_weeks_col.
  assert (E1 : normalize_col (lower a) = normalize_col a)
    by (unfold normalize_col; now rewrite lower_idem).
  assert (E2 : normalize_col (a ++ " " ++ b) = normalize_col (a ++ b))
    by now rewrite !normalize_col_app.
  assert (E3 : normalize_col (a ++ "_" ++ b) = normalize_col (a ++ b))
    by now rewrite !normalize_col_app.
  now rewrite E1, E2, E3.
Qed.

Lemma pick_some (f : str -> bool) (cols : list str) (c : str) :
  pick f cols None = Some c -> last_such (fun x => f x = true) cols c.
Proof.
  induction cols as [|x cols IH] using rev_ind; [discriminate|].
  rewrite pick_snoc. destruct (f x) eqn:Hx.
  - intros [= <-]. exists cols, []. repeat split; auto.
  - intros H. apply IH in H as (l1 & l2 & -> & Hc & Hl2).
    exists l1, (l2 ++ [x]). rewrite <- app_assoc. repeat split; auto.
    apply Forall_app. split; [exact Hl2|]. repeat constructor. congruence.
Qed.

(** X11. The column scan only ever settles on a column that passes its
    test, and then on the last such column: an answer of [get_life_expectancy]
    is never read from a column whose normalised label lacks "expectancy". *)
Theorem chosen_columns_pass_test (cols : list str) :
  (forall c, fst (scan_columns cols) = Some c ->
     last_such (fun x => is_years_col x = true) cols c) /\
  (forall c, snd (scan_columns cols) = Some c ->
     last_such (fun x => is_weeks_col x = true) cols c).
Proof.
  unfold scan_columns. rewrite scan_columns_pick. cbn [fst snd].
  split; intros c; apply pick_some.
Qed.

Lemma chosen_columns_pass_test_witness :
  last_such (fun x => is_years_col x = true) (columns (df twice))
            ("Expectancy Years (95)" : str).
Proof.
  apply (proj1 (chosen_columns_pass_test (columns (df twice)))). reflexivity.
Defined.

(** ** Lookups that find nothing *)




(** ** Remaining life is never negative *)

Lemma round_not_negative (mx ex : Z) (lx : SpecFloat.location) :
  sf_not_negative (binary_round_aux prec emax false mx ex lx).
Proof.
  unfold sf_not_negative, binary_round_aux.
  destruct (shr_fexp prec emax mx ex lx) as [mrs' e'].
  destruct (shr_fexp prec emax _ e' loc_Exact) as [mrs'' e''].
  destruct (shr_m mrs''); [reflexivity | | reflexivity].
  now destruct (e'' <=? emax - prec).
Qed.

Lemma times_52_not_negative (f : float) :
  PrimFloat.ltb f 0 = false -> PrimFloat.ltb (f * 52) 0 = false.
Proof.
  rewrite !ltb_spec, mul_spec.
  change (Prim2SF 0) with (S754_zero false).
  replace (Prim2SF 52) with (S754_finite false 7318349394477056 (-47))
    by (vm_compute; reflexivity).
  fold (sf_not_negative (Prim2SF f)).
  destruct (Prim2SF f) as [s | s | | s m e]; unfold SF64mul, SFmul;
    try destruct s; try (intros H; discriminate H); intros _;
    try reflexivity.
  apply round_not_negative.
Qed.

(** X13. Whatever [compute_remaining_life] returns, neither the remaining
    years nor the remaining weeks are below zero; when the years come out as
    an integer, the weeks are 52 times that integer. *)
Theorem remaining_never_negative (e a r w : num) :
  compute_remaining_life e a = Ok (r, w) ->
  zero_gt r = false /\ zero_gt w = false /\
  (forall z, r = PyInt z -> 0 <= z /\ w = PyInt (52 * z)).
Proof.
  unfold compute_remaining_life.
  destruct (num_sub e a) as [d|] eqn:Hd; cbn [bind]; [|discriminate].
  assert (Hr : zero_gt (max_with_zero d) = false).
  { unfold max_with_zero. destruct (zero_gt d) eqn:E; [reflexivity | exact E]. }
  destruct (max_with_zero d) as [z|f] eqn:Hm; unfold num_mul, lift_float.
  - cbn [bind]. intros [= <- <-]. cbn [zero_gt] in *.
    apply Z.ltb_ge in Hr. split; [now apply Z.ltb_ge|]. split.
    + apply Z.ltb_ge. lia.
    + intros z' [= <-]. split; [exact Hr | f_equal; lia].
  - rewrite float_of_int_52. cbn [bind]. intros [= <- <-]. cbn [zero_gt] in *.
    split; [exact Hr|]. split; [now apply times_52_not_negative | discriminate].
Qed.

Lemma remaining_never_negative_witness :
  zero_gt (PyFloat 52.5) = false /\ zero_gt (PyFloat 2730) = false.
Proof.
  destruct (remaining_never_negative (PyFloat 82.5) (PyInt 30)
              (PyFloat 52.5) (PyFloat 2730) eq_refl) as (H1 & H2 & _).
  now split.
Defined.

(** ** The route, branch by branch *)

Lemma estimate_age_range (current_year : Z) (text : str) (a : Z) :
  estimate_age current_year text = Some a -> 0 < a < 120.
Proof.
  unfold estimate_age.
  destruct (detect_age (lower text)) as [d|] eqn:Hd.
  - intros [= <-]. now apply detect_age_range in Hd.
  - destruct (detect_birth_year current_year (lower text)) as [y|]; [|discriminate].
    destruct (chain_lt 0 (current_year - y) 120) eqn:Hc; [|discriminate].
    intros [= <-]. unfold chain_lt in Hc. codes. lia.
Qed.

Lemma double_bound_large : 120 < double_bound.
Proof. reflexivity. Qed.

(** With the age of a person the calculator does not raise. *)
Lemma compute_remaining_life_age (years : float) (a : Z) :
  0 < a < 120 ->
  exists rem, compute_remaining_life (PyFloat years) (PyInt a) = Ok rem.
Proof.
  intros Ha. unfold compute_remaining_life, num_sub, lift_float.
  rewrite float_of_int_fits by (pose proof double_bound_large; lia).
  cbn [bind].
  match goal with |- context [num_mul ?x (PyInt 52)] =>
    destruct (num_mul_52 x) as [w Hw]; rewrite Hw end.
  now eexists.
Qed.

Ltac route_branches H :=
  unfold index in H;
  match type of H with context [user_text ?req] => fold (submitted req) in H end;
  repeat match type of H with
    | context [match method ?r with _ => _ end] => destruct (method r) eqn:?
    | context [if is_action ?a ?n then _ else _] =>
        let E := fresh "Hact" in
        destruct (is_action a n) eqn:E;
        [apply is_action_eq in E|]
    | context [match photo ?r with _ => _ end] => destruct (photo r) eqn:?
    | context [if truthy ?s then _ else _] => destruct (truthy s) eqn:?
    | context [if negb ?b then _ else _] => destruct b eqn:?; cbn [negb] in H
    end.

Section RouteFacts.
Variable secure_filename : str -> str.

(** X14. A response never carries both a result and a warning.  A result
    comes only from a POST with action "predict" and a text that is not
    blank; a saved file only from the action "analyze_photo", with neither
    result nor warning; and unless a file was saved, a POST gets its text
    back. *)
Theorem index_result_or_warning
    (g : Globals) (current_year : Z) (req : Request) (resp : Response) :
  index secure_filename g current_year req = Ok resp ->
  (result resp = None \/ warning resp = None) /\
  (result resp <> None ->
   method req = POST /\ action req = Some ("predict" : str) /\
   strip (submitted req) <> [] /\ saved resp = None) /\
  (saved resp <> None ->
   method req = POST /\ action req = Some ("analyze_photo" : str) /\
   result resp = None /\ warning resp = None) /\
  (method req = POST -> saved resp = None -> input_text resp = submitted req).
Proof.
  intros H. route_branches H;
    try (injection H as <-; cbn;
         repeat split; auto; try congruence; try (intros; congruence)).
  destruct (get_life_expectancy _ _ _) as [[[years weeks]|]|]; cbn [bind] in H;
    [| injection H as <-; cbn; repeat split; auto; congruence | discriminate].
  destruct (int_of_float weeks); cbn [bind] in H; [|discriminate].
  destruct (estimate_age _ _).
  - destruct (compute_remaining_life _ _) as [rem|]; cbn [bind] in H; [|discriminate].
    destruct (py_int _); cbn [bind] in H; [|discriminate].
    injection H as <-. cbn. repeat split; auto; try congruence.
    intros E. destruct (strip (submitted req)); [discriminate | discriminate].
  - injection H as <-. cbn. repeat split; auto; try congruence.
    intros E. destruct (strip (submitted req)); [discriminate | discriminate].
Qed.

(** X15. Apart from the photo upload, whose file is written outside this
    model, the route raises only under the action "predict" with a text that
    is not blank, and only because the lookup raised or because [int] refused
    the expectancy in weeks or the remaining weeks; with the age of a person
    the calculator itself never raises. *)
Theorem index_raises_only_on_lookup_or_int
    (g : Globals) (current_year : Z) (req : Request) (e : exn) :
  action req <> Some ("analyze_photo" : str) ->
  index secure_filename g current_year req = Raise e ->
  method req = POST /\ action req = Some ("predict" : str) /\
  strip (submitted req) <> [] /\
  let location := detect_location g (submitted req) in
  (get_life_expectancy g location None = Raise e \/
   exists years weeks,
     get_life_expectancy g location None = Ok (Some (years, weeks)) /\
     (int_of_float weeks = Raise e \/
      exists a rem,
        estimate_age current_year (submitted req) = Some a /\
        compute_remaining_life (PyFloat years) (PyInt a) = Ok rem /\
        py_int (snd rem) = Raise e)).
Proof.
  intros _ H. route_branches H; try discriminate.
  split; [reflexivity|]. split; [assumption|]. split.
  { intros E. rewrite E in *. discriminate. }
  cbn zeta.
  destruct (get_life_expectancy _ _ _) as [[[years weeks]|]|] eqn:Hl;
    cbn [bind] in H; [| discriminate | left; congruence].
  right. exists years, weeks. split; [reflexivity|].
  destruct (int_of_float weeks) as [wi|] eqn:Hw; cbn [bind] in H;
    [|left; congruence].
  right. destruct (estimate_age _ _) as [n|] eqn:Ha; [|discriminate].
  destruct (compute_remaining_life_age years n (estimate_age_range _ _ _ Ha))
    as [rem Hrem].
  rewrite Hrem in H. cbn [bind] in H.
  destruct (py_int (snd rem)) as [k|] eqn:Hp; cbn [bind] in H; [discriminate|].
  exists n, rem. repeat split; congruence.
Qed.

End RouteFacts.

Lemma index_result_or_warning_witness :
  result (mkResponse (Some sample_analysis) None
            ("J'ai 30 ANS et je vis en France" : str) None) = None \/
  warning (mkResponse (Some sample_analysis) None
             ("J'ai 30 ANS et je vis en France" : str) None) = None.
Proof.
  apply (proj1 (index_result_or_warning (fun s => s) sample 2026
                  (predict "J'ai 30 ANS et je vis en France") _ eq_refl)).
Defined.

Lemma index_raises_only_on_lookup_or_int_witness :
  exists years weeks,
    get_life_expectancy holes (detect_location holes (submitted (predict "Bonjour")))
      None = Ok (Some (years, weeks)).
Proof.
  destruct (index_raises_only_on_lookup_or_int (fun s => s) holes 2026
              (predict "Bonjour") ValueError ltac:(discriminate) eq_refl)
    as (_ & _ & _ & [Hl | (years & weeks & Hl & _)]).
  - vm_compute in Hl. discriminate Hl.
  - now exists years, weeks.
Defined.

